(** * GrattisEvent: a durable event queue over a document store

    Shallow embedding of [src/index.js] (class [GrattisEvent]) and proofs
    of the properties its specification states.

    - JavaScript values are an inductive type; a payload object is the
      list of its entries in [Object.keys] order.
    - The instance fields ([collection], [isRun]) and the content of the
      store's collection live in one record, [State].
    - A function that can throw returns a [Result].
    - The timer callback of [getItems] is an [async] function: it runs in
      segments separated by its two [await]s.  Each segment is a function on
      [State]; the process as a whole is a step function over the events
      the JavaScript event loop delivers.
    - The store is the list of its documents.  Its operations ([insert],
      [find] with [sort] and [limit], [deleteOne]) follow the storage
      interface the queue requires of it; whether the store accepts a
      request is given from outside ([Env], and the answers carried by the
      events). *)

From Stdlib Require Import ZArith NArith List String Ascii Bool Lia Sorted Permutation.
Import ListNotations.
Open Scope string_scope.
Open Scope list_scope.
Open Scope Z_scope.

(** ** Errors and results *)

Inductive Error : Type :=
| TypeError                    (* a property read or call on a wrong value *)
| BSONError                    (* the ObjectId constructor rejects its input *)
| ConnectionError (code : nat) (* MongoClient.connect rejects *)
| WriteError (code : nat)      (* collection.insert rejects *)
| QueryError (code : nat)      (* the find cursor rejects *)
| HandlerError (code : nat).   (* the callback throws or rejects *)

Inductive Result (A : Type) : Type :=
| Ok (a : A)
| Throw (e : Error).

Arguments Ok {A} a.
Arguments Throw {A} e.

Definition bind {A B : Type} (r : Result A) (k : A -> Result B) : Result B :=
  match r with
  | Ok a => k a
  | Throw e => Throw e
  end.

Notation "x <- r ;; k" := (bind r (fun x => k))
  (at level 61, r at next level, right associativity).

(** ** Values *)

(** An ObjectId is twelve bytes; it is kept as the number its 24
    hexadecimal digits denote, so that the two letter cases of a digit give
    the same identifier. *)
Definition ObjectId : Type := N.

#[warnings="-register-all"]
Inductive Value : Type :=
| VString (s : string)
| VNumber (n : Z)
| VBool (b : bool)
| VNull
| VObject (fields : list (string * Value))
| VObjectId (o : ObjectId).

(** [typeof val === 'string'] *)
Definition typeof_is_string (val : Value) : bool :=
  match val with
  | VString _ => true
  | _ => false
  end.

(** One character of the class [[0-9a-fA-F]], with its value. *)
Definition hex_digit (c : ascii) : option N :=
  let n := N_of_ascii c in
  if ((48 <=? n) && (n <=? 57))%N then Some (n - 48)%N
  else if ((97 <=? n) && (n <=? 102))%N then Some (n - 87)%N
  else if ((65 <=? n) && (n <=? 70))%N then Some (n - 55)%N
  else None.

Definition is_hex (c : ascii) : bool :=
  match hex_digit c with
  | Some _ => true
  | None => false
  end.

(** The pattern [/^[0-9a-fA-F]{24}$/]: without the [m] flag [$] matches at
    the end of the input only, so the whole string is 24 hexadecimal
    digits. *)
Definition matches_hex24 (s : string) : bool :=
  (Nat.eqb (String.length s) 24) && forallb is_hex (list_ascii_of_string s).

(** [isObjectId (str)]: [str.match (...)].  Of the values modelled only a
    string has a [match] method; on any other value the call is a
    TypeError.  An object that brings a callable [match] of its own (a
    String object, say) is not among the values modelled.  The result is
    the match (its element 0, the whole string, as the pattern is anchored
    at both ends) or null. *)
Definition isObjectId (str : Value) : Result (option string) :=
  match str with
  | VString s => Ok (if matches_hex24 s then Some s else None)
  | _ => Throw TypeError
  end.

Definition hex_value (s : string) : N :=
  fold_left (fun acc c =>
               match hex_digit c with
               | Some d => (16 * acc + d)%N
               | None => acc
               end)
            (list_ascii_of_string s) 0%N.

(** The identifier a caller hands to [removeEvent]: the [_id] of a
    delivered record, or its text. *)
Inductive EventId : Type :=
| IdString (s : string)
| IdObject (o : ObjectId).

(** A character that is one byte of text (a code below 128). *)
Definition is_one_byte (c : ascii) : bool := (N_of_ascii c <? 128)%N.

(** A string of 12 bytes: 12 characters of one byte each. *)
Definition twelve_bytes (s : string) : bool :=
  (Nat.eqb (String.length s) 12) && forallb is_one_byte (list_ascii_of_string s).

Definition bytes_value (s : string) : N :=
  fold_left (fun acc c => (256 * acc + N_of_ascii c)%N)
            (list_ascii_of_string s) 0%N.

(** The [ObjectId] constructor is the driver's, not the repository's.  It
    is modelled as the driver releases that have [collection.insert] behave:
    an ObjectId is taken as it is, a string of 12 bytes is taken as the
    twelve bytes themselves, a string of 24 hexadecimal digits as the bytes
    it spells, and any other string is rejected. *)
Definition new_ObjectId (id : EventId) : Result ObjectId :=
  match id with
  | IdObject o => Ok o
  | IdString s =>
      if twelve_bytes s then Ok (bytes_value s)
      else if matches_hex24 s then Ok (hex_value s)
      else Throw BSONError
  end.

(** ** Documents and state *)

Definition Payload : Type := list (string * Value).

Record Doc : Type := mkDoc {
  _id : ObjectId;
  value : Payload;
  date : Z;
  isWork : bool;
  isDone : bool
}.

(** What the process does to the outside, in order. *)
Inductive Effect : Type :=
| EConnect
| EInsert (d : Doc)
| EFind (now : Z) (limit : Z)
| EHandler (events : list Doc)
| EDelete (o : ObjectId)
| ELog (e : Error).

(** A suspended run of the timer callback. *)
Inductive Phase : Type :=
| AwaitFind (now limit : Z)
| AwaitHandler.

Record State : Type := mkState {
  collection : bool;       (* [this.collection] is not null *)
  isRun : bool;            (* [this.isRun] *)
  docs : list Doc;         (* the documents of the store's collection *)
  nextId : ObjectId;       (* the next identifier the driver generates *)
  timers : nat;            (* intervals registered by [getItems] *)
  pending : list Phase     (* runs of the timer callback that are suspended *)
}.

Definition set_collection (b : bool) (s : State) : State :=
  mkState b (isRun s) (docs s) (nextId s) (timers s) (pending s).

Definition set_isRun (b : bool) (s : State) : State :=
  mkState (collection s) b (docs s) (nextId s) (timers s) (pending s).

Definition set_docs (l : list Doc) (s : State) : State :=
  mkState (collection s) (isRun s) l (nextId s) (timers s) (pending s).

Definition set_nextId (n : ObjectId) (s : State) : State :=
  mkState (collection s) (isRun s) (docs s) n (timers s) (pending s).

Definition set_timers (n : nat) (s : State) : State :=
  mkState (collection s) (isRun s) (docs s) (nextId s) n (pending s).

Definition set_pending (l : list Phase) (s : State) : State :=
  mkState (collection s) (isRun s) (docs s) (nextId s) (timers s) l.

(** A new instance: the field initialisers of the class. *)
Definition new_GrattisEvent (store : list Doc) (fresh : ObjectId) : State :=
  mkState false false store fresh 0 [].

(** How the store answers the requests of one call. *)
Record Env : Type := mkEnv {
  connect_error : option Error;
  insert_error : option Error
}.

Definition store_up : Env := mkEnv None None.

(** An operation: its completion, the state it leaves and what it did. *)
Definition Op (A : Type) : Type := Result A * State * list Effect.

(** ** connect *)

Definition connect (env : Env) (s : State) : Op unit :=
  match connect_error env with
  | Some e => (Throw e, s, [EConnect])
  | None => (Ok tt, set_collection true s, [EConnect])
  end.

(** [if (!this.collection) await this.connect()] *)
Definition ensure_connected (env : Env) (s : State) : Op unit :=
  if collection s then (Ok tt, s, []) else connect env s.

(** ** send *)

(** The body of the [forEach] callback for one key. *)
Definition normalize_entry (kv : string * Value) : Result (string * Value) :=
  let (key, val) := kv in
  if typeof_is_string val then Ok (key, val)
  else
    m <- isObjectId val ;;
    match m with
    | None => Ok (key, val)
    | Some str => o <- new_ObjectId (IdString str) ;; Ok (key, VObjectId o)
    end.

(** [Object.keys (value).forEach (...)]: the keys in order; the first call
    that throws ends the loop. *)
Fixpoint normalize (value : Payload) : Result Payload :=
  match value with
  | [] => Ok []
  | kv :: rest =>
      kv' <- normalize_entry kv ;;
      rest' <- normalize rest ;;
      Ok (kv' :: rest')
  end.

(** [collection.insert]: the driver gives the document its [_id]. *)
Definition insert (env : Env) (value : Payload) (date : Z) (s : State) : Op unit :=
  match insert_error env with
  | Some e => (Throw e, s, [])
  | None =>
      let d := mkDoc (nextId s) value date false false in
      (Ok tt, set_nextId (N.succ (nextId s)) (set_docs (docs s ++ [d]) s), [EInsert d])
  end.

(** [send (value, date = Date.now())]; [now] is the clock at the call. *)
Definition send (env : Env) (value : Payload) (date : option Z) (now : Z)
                (s : State) : Op unit :=
  let date := match date with Some d => d | None => now end in
  match ensure_connected env s with
  | (Throw e, s1, eff) => (Throw e, s1, eff)
  | (Ok _, s1, eff) =>
      match normalize value with
      | Throw e => (Throw e, s1, eff)
      | Ok value' =>
          match insert env value' date s1 with
          | (r, s2, eff2) => (r, s2, eff ++ eff2)
          end
      end
  end.

(** ** removeEvent *)

(** [collection.deleteOne ({ _id })]: the first document with this [_id]
    is removed, if there is one. *)
Fixpoint deleteOne (o : ObjectId) (l : list Doc) : list Doc :=
  match l with
  | [] => []
  | d :: rest => if N.eqb (_id d) o then rest else d :: deleteOne o rest
  end.

(** [await this.collection.deleteOne ({ _id: new ObjectId (eventId) })].
    The member access [this.collection.deleteOne] is evaluated before the
    argument list: on a null [collection] it throws before the ObjectId is
    built.  [answer] is the error of the store, if it rejects the delete:
    the [await] is not guarded, so the error leaves [removeEvent], and
    nothing has been deleted. *)
Definition removeEvent (answer : option Error) (eventId : EventId) (s : State)
    : Op unit :=
  if collection s then
    match new_ObjectId eventId with
    | Throw e => (Throw e, s, [])
    | Ok o =>
        match answer with
        | Some e => (Throw e, s, [EDelete o])
        | None => (Ok tt, set_docs (deleteOne o (docs s)) s, [EDelete o])
        end
    end
  else (Throw TypeError, s, []).

(** ** The due-batch query *)

(** The filter [{ date: { $lt: Date.now () }, isWork: false, isDone: false }]. *)
Definition due (now : Z) (d : Doc) : bool :=
  (date d <? now) && negb (isWork d) && negb (isDone d).

(** [sort ({ date: 1 })]: ascending by [date].  The store fixes no order
    among documents of equal date; here they keep the order of the
    collection, and a statement about the order inside a batch is made for
    collections with distinct dates. *)
Fixpoint insert_by_date (d : Doc) (l : list Doc) : list Doc :=
  match l with
  | [] => [d]
  | x :: rest =>
      if date d <=? date x then d :: x :: rest else x :: insert_by_date d rest
  end.

Definition sort_by_date (l : list Doc) : list Doc :=
  fold_right insert_by_date [] l.

(** [limit (n)]: the store reads 0 as no limit and a negative number as
    its absolute value. *)
Definition cursor_limit (n : Z) (l : list Doc) : list Doc :=
  if n =? 0 then l else firstn (Z.to_nat (Z.abs n)) l.

(** [collection.find (...).sort ({ date: 1 }).limit (limit).toArray ()] *)
Definition find_due (now limit : Z) (l : list Doc) : list Doc :=
  cursor_limit limit (sort_by_date (filter (due now) l)).

(** ** getItems and its timer callback *)

(** [getItems (cb, timeout, limit)]: connects if needed, then registers the
    interval.  When [connect] rejects, no interval is registered. *)
Definition getItems (env : Env) (s : State) : Op unit :=
  match ensure_connected env s with
  | (Throw e, s1, eff) => (Throw e, s1, eff)
  | (Ok _, s1, eff) => (Ok tt, set_timers (S (timers s1)) s1, eff)
  end.

(** How one segment of the callback ends. *)
Inductive Outcome : Type :=
| Return              (* the callback returns: its promise resolves *)
| Raise (e : Error)   (* an exception leaves the segment *)
| Await (p : Phase).  (* the callback is suspended at an [await] *)

Definition Segment : Type := Outcome * State * list Effect.

(** From the timer firing to [await ... toArray ()]. *)
Definition tick_start (now limit : Z) (s : State) : Segment :=
  if isRun s then (Return, s, [])
  else
    let s1 := set_isRun true s in
    if collection s1 then (Await (AwaitFind now limit), s1, [EFind now limit])
    else (Raise TypeError, s1, []).

(** From the answer of the query to [await cb (events)].  [answer] is the
    error of the store, if it rejects. *)
Definition tick_found (now limit : Z) (answer : option Error) (s : State) : Segment :=
  match answer with
  | Some e => (Raise e, s, [])
  | None =>
      match find_due now limit (docs s) with
      | [] => (Return, s, [])
      | events => (Await AwaitHandler, s, [EHandler events])
      end
  end.

(** From the end of the handler to the end of the [try] block. *)
Definition tick_handled (answer : option Error) (s : State) : Segment :=
  match answer with
  | Some e => (Raise e, s, [])
  | None => (Return, set_isRun false s, [])
  end.

(** The [catch] clause around the whole body. *)
Definition catch (seg : Segment) : Segment :=
  match seg with
  | (Raise err, s, eff) => (Return, set_isRun false s, eff ++ [ELog err])
  | _ => seg
  end.

(** ** The process *)

Inductive Event : Type :=
| Tick (now limit : Z)                              (* an interval fires *)
| FindSettled (i : nat) (answer : option Error)
| HandlerSettled (i : nat) (answer : option Error)
| CallSend (env : Env) (value : Payload) (date : option Z) (now : Z)
| CallRemoveEvent (answer : option Error) (eventId : EventId).

Fixpoint remove_nth {A : Type} (i : nat) (l : list A) : list A :=
  match l, i with
  | [], _ => []
  | _ :: rest, O => rest
  | x :: rest, S j => x :: remove_nth j rest
  end.

(** A segment has run: a suspended callback joins [pending]. *)
Definition settle (seg : Segment) : State * list Effect :=
  match catch seg with
  | (Await p, s, eff) => (set_pending (pending s ++ [p]) s, eff)
  | (_, s, eff) => (s, eff)
  end.

Definition step (ev : Event) (s : State) : State * list Effect :=
  match ev with
  | Tick now limit => settle (tick_start now limit s)
  | FindSettled i answer =>
      match nth_error (pending s) i with
      | Some (AwaitFind now limit) =>
          settle (tick_found now limit answer
                    (set_pending (remove_nth i (pending s)) s))
      | _ => (s, [])
      end
  | HandlerSettled i answer =>
      match nth_error (pending s) i with
      | Some AwaitHandler =>
          settle (tick_handled answer
                    (set_pending (remove_nth i (pending s)) s))
      | _ => (s, [])
      end
  | CallSend env value date now =>
      match send env value date now s with
      | (_, s', eff) => (s', eff)
      end
  | CallRemoveEvent answer eventId =>
      match removeEvent answer eventId s with
      | (_, s', eff) => (s', eff)
      end
  end.

(** The events of a run, oldest first, with everything they did. *)
Fixpoint run (evs : list Event) (s : State) : State * list Effect :=
  match evs with
  | [] => (s, [])
  | ev :: rest =>
      let (s1, eff1) := step ev s in
      let (s2, eff2) := run rest s1 in
      (s2, eff1 ++ eff2)
  end.

Definition is_query (e : Effect) : bool :=
  match e with
  | EFind _ _ => true
  | _ => false
  end.

Definition is_handler_call (e : Effect) : bool :=
  match e with
  | EHandler _ => true
  | _ => false
  end.

(** ** Predicates and sample data of the statements *)

(** Ascending order of a batch, and its strict form. *)
Definition by_date (a b : Doc) : Prop := date a <= date b.
Definition by_date_strict (a b : Doc) : Prop := date a < date b.

(** Following the spec's words (section 3): a record is due iff its
    [scheduledAt] is at or before the current time and neither flag is
    set. *)
Definition spec_due (now : Z) (d : Doc) : bool :=
  (date d <=? now) && negb (isWork d) && negb (isDone d).

(** A payload all of whose values are strings. *)
Definition all_strings (value : Payload) : Prop :=
  Forall (fun kv => typeof_is_string (snd kv) = true) value.

(** The invariant of the process: at most one run of the callback is
    suspended, and while one is, the guard is set. *)
Definition single_flight_inv (s : State) : Prop :=
  (List.length (pending s) <= 1)%nat /\ (pending s <> [] -> isRun s = true).

(** The segment a suspended callback runs when what it awaits fails
    with [e]. *)
Definition failing_segment (p : Phase) (e : Error) (s : State) : Segment :=
  match p with
  | AwaitFind now limit => tick_found now limit (Some e) s
  | AwaitHandler => tick_handled (Some e) s
  end.

Definition failure_of (p : Phase) (i : nat) (e : Error) : Event :=
  match p with
  | AwaitFind _ _ => FindSettled i (Some e)
  | AwaitHandler => HandlerSettled i (Some e)
  end.

(** Three due records, and an instance suspended at its query. *)
Definition three_records : list Doc :=
  [mkDoc 1%N [] 50 false false; mkDoc 2%N [] 30 false false;
   mkDoc 3%N [] 10 false false].

Definition awaiting_find (now limit : Z) (l : list Doc) : State :=
  mkState true true l 10%N 1 [AwaitFind now limit].

(** ** Predicates of the further properties *)

(** Every value of the payload is a string, as a test. *)
Definition all_stringsb (value : Payload) : bool :=
  forallb (fun kv => typeof_is_string (snd kv)) value.

Definition is_connect (e : Effect) : bool :=
  match e with
  | EConnect => true
  | _ => false
  end.

(** A request that changes the collection. *)
Definition is_store_write (e : Effect) : bool :=
  match e with
  | EInsert _ | EDelete _ => true
  | _ => false
  end.

(** The events of the timer callback, as opposed to calls of the API. *)
Definition is_poll_event (ev : Event) : bool :=
  match ev with
  | Tick _ _ | FindSettled _ _ | HandlerSettled _ _ => true
  | _ => false
  end.

(** The date [send] stores: its second argument, or the clock. *)
Definition date_or_now (dt : option Z) (now : Z) : Z :=
  match dt with
  | Some t => t
  | None => now
  end.

(** The number of records a limit lets through; [None] is no bound. *)
Definition limit_count (limit : Z) : option nat :=
  if limit =? 0 then None else Some (Z.to_nat (Z.abs limit)).

(** A handler that calls [removeEvent] with the [_id] of each of the
    records in turn, the store accepting every delete. *)
Definition remove_all (records : list Doc) (s : State) : State :=
  fold_left (fun st d => snd (fst (removeEvent None (IdObject (_id d)) st)))
            records s.

(** * Properties *)

(** ** The query: filter, order, limit *)

Lemma due_spec (now : Z) (d : Doc) :
  due now d = true <-> date d < now /\ isWork d = false /\ isDone d = false.
Proof.
  unfold due. rewrite !andb_true_iff, !negb_true_iff, Z.ltb_lt. tauto.
Qed.

Lemma insert_by_date_perm (d : Doc) (l : list Doc) :
  Permutation (d :: l) (insert_by_date d l).
Proof.
  induction l as [|x rest IH]; simpl.
  - apply Permutation_refl.
  - destruct (date d <=? date x).
    + apply Permutation_refl.
    + eapply Permutation_trans; [apply perm_swap|].
      apply perm_skip, IH.
Qed.

Lemma sort_by_date_perm (l : list Doc) : Permutation l (sort_by_date l).
Proof.
  induction l as [|d rest IH]; simpl.
  - apply Permutation_refl.
  - eapply Permutation_trans; [apply perm_skip, IH|].
    apply insert_by_date_perm.
Qed.

Lemma insert_by_date_sorted (d : Doc) (l : list Doc) :
  StronglySorted by_date l -> StronglySorted by_date (insert_by_date d l).
Proof.
  induction 1 as [|x rest Hrest IH Hall]; simpl.
  - constructor; constructor.
  - destruct (date d <=? date x) eqn:E.
    + apply Z.leb_le in E. constructor.
      * constructor; assumption.
      * constructor; [exact E|].
        eapply Forall_impl; [|exact Hall].
        intros a Ha. unfold by_date in *. lia.
    + apply Z.leb_gt in E. constructor; [exact IH|].
      assert (Hp := insert_by_date_perm d rest).
      eapply Permutation_Forall; [exact Hp|].
      constructor; [unfold by_date; lia | exact Hall].
Qed.

Lemma sort_by_date_sorted (l : list Doc) : StronglySorted by_date (sort_by_date l).
Proof.
  induction l as [|d rest IH]; simpl.
  - constructor.
  - apply insert_by_date_sorted, IH.
Qed.

Lemma cursor_limit_split (n : Z) (l : list Doc) :
  exists rest,
    l = cursor_limit n l ++ rest /\
    (rest <> [] -> n <> 0 /\ List.length (cursor_limit n l) = Z.to_nat (Z.abs n)).
Proof.
  unfold cursor_limit. destruct (n =? 0) eqn:E.
  - exists []. split; [now rewrite app_nil_r | congruence].
  - apply Z.eqb_neq in E.
    exists (skipn (Z.to_nat (Z.abs n)) l). split.
    + symmetry. apply firstn_skipn.
    + intros Hne. split; [exact E|].
      apply firstn_length_le.
      destruct (Nat.le_gt_cases (Z.to_nat (Z.abs n)) (List.length l)) as [Hle|Hgt];
        [exact Hle|].
      exfalso. apply Hne. apply skipn_all2. lia.
Qed.

Lemma sorted_app_le (l1 l2 : list Doc) :
  StronglySorted by_date (l1 ++ l2) ->
  StronglySorted by_date l1 /\
  forall x y, In x l1 -> In y l2 -> date x <= date y.
Proof.
  induction l1 as [|a l1 IH]; simpl; intros H.
  - split; [constructor | intros x y []].
  - inversion H as [|? ? Hs Hall]; subst.
    destruct (IH Hs) as [Hs1 Hle]. split.
    + constructor; [exact Hs1|].
      apply Forall_app in Hall. tauto.
    + intros x y [->|Hx] Hy.
      * rewrite Forall_forall in Hall. apply Hall, in_or_app. now right.
      * now apply Hle.
Qed.

Lemma find_due_sorted (now limit : Z) (l : list Doc) :
  StronglySorted by_date (find_due now limit l).
Proof.
  unfold find_due.
  destruct (cursor_limit_split limit (sort_by_date (filter (due now) l)))
    as [rest [Heq _]].
  assert (Hs := sort_by_date_sorted (filter (due now) l)).
  rewrite Heq in Hs. now apply sorted_app_le in Hs.
Qed.

Lemma find_due_subset (now limit : Z) (l : list Doc) (d : Doc) :
  In d (find_due now limit l) -> In d l /\ due now d = true.
Proof.
  unfold find_due. intros Hin.
  destruct (cursor_limit_split limit (sort_by_date (filter (due now) l)))
    as [rest [Heq _]].
  apply filter_In.
  eapply Permutation_in; [apply Permutation_sym, sort_by_date_perm|].
  rewrite Heq. apply in_or_app. now left.
Qed.

(** C3, as stated, fails: a record scheduled exactly at the current time
    is due in the spec's sense, the limit leaves room for it, and the
    query does not return it. *)
Lemma record_due_now_is_not_returned :
  let d := mkDoc 1%N [] 100 false false in
  In d [d] /\ spec_due 100 d = true /\
  (List.length (filter (spec_due 100) [d]) <= 10)%nat /\
  ~ In d (find_due 100 10 [d]).
Proof.
  cbv zeta. repeat split.
  - now left.
  - simpl. lia.
  - unfold find_due. simpl. intros [].
Qed.

(** C3, amended: the batch of a query is made of records of the
    collection scheduled strictly before the current time with both flags
    unset; together with the records left out ([rest]) it is the whole set
    of such records; a record is left out only when the limit is not 0 and
    the batch already holds that many records, none scheduled later than
    it; and with a limit other than 0 the batch never holds more records
    than the limit. *)
Theorem find_due_exact (now limit : Z) (l : list Doc) :
  exists rest,
    Permutation (filter (due now) l) (find_due now limit l ++ rest) /\
    (forall d, In d (find_due now limit l) ->
               In d l /\ date d < now /\ isWork d = false /\ isDone d = false) /\
    (forall d, In d l -> date d < now -> isWork d = false -> isDone d = false ->
               In d (find_due now limit l) \/ In d rest) /\
    (forall x y, In x (find_due now limit l) -> In y rest -> date x <= date y) /\
    (rest <> [] ->
       limit <> 0 /\ List.length (find_due now limit l) = Z.to_nat (Z.abs limit)) /\
    (limit <> 0 ->
       (List.length (find_due now limit l) <= Z.to_nat (Z.abs limit))%nat).
Proof.
  unfold find_due.
  destruct (cursor_limit_split limit (sort_by_date (filter (due now) l)))
    as [rest [Heq Hfull]].
  set (batch := cursor_limit limit (sort_by_date (filter (due now) l))) in *.
  assert (Hperm : Permutation (filter (due now) l) (batch ++ rest)).
  { rewrite <- Heq. apply sort_by_date_perm. }
  exists rest. repeat split.
  - exact Hperm.
  - apply (find_due_subset now limit l d H).
  - apply due_spec. apply (find_due_subset now limit l d H).
  - apply (proj1 (due_spec now d)). apply (find_due_subset now limit l d H).
  - apply (proj1 (due_spec now d)). apply (find_due_subset now limit l d H).
  - intros d Hin Hlt Hw Hd. apply in_app_or.
    eapply Permutation_in; [exact Hperm|].
    apply filter_In. split; [exact Hin|]. apply due_spec. tauto.
  - assert (Hs := sort_by_date_sorted (filter (due now) l)).
    rewrite Heq in Hs. apply sorted_app_le in Hs. apply Hs.
  - now apply Hfull.
  - now apply Hfull.
  - intros Hne. unfold batch, cursor_limit.
    apply Z.eqb_neq in Hne. rewrite Hne. apply firstn_le_length.
Qed.

Lemma find_due_exact_witness :
  let d1 := mkDoc 1%N [] 50 false false in
  let d2 := mkDoc 2%N [] 30 false false in
  let d3 := mkDoc 3%N [] 100 false false in
  exists rest,
    Permutation (filter (due 100) [d1; d2; d3]) (find_due 100 1 [d1; d2; d3] ++ rest) /\
    (In d2 (find_due 100 1 [d1; d2; d3]) \/ In d2 rest) /\
    (In d1 (find_due 100 1 [d1; d2; d3]) \/ In d1 rest) /\
    (List.length (find_due 100 1 [d1; d2; d3]) <= 1)%nat.
Proof.
  cbv zeta.
  destruct (find_due_exact 100 1
              [mkDoc 1%N [] 50 false false; mkDoc 2%N [] 30 false false;
               mkDoc 3%N [] 100 false false])
    as [rest [Hp [_ [Hin [_ [_ Hlen]]]]]].
  exists rest. split; [exact Hp|]. split; [|split].
  - apply Hin; simpl; [tauto | lia | reflexivity | reflexivity].
  - apply Hin; simpl; [tauto | lia | reflexivity | reflexivity].
  - apply Hlen. discriminate.
Defined.

(** ** What a step hands to the handler *)

(** Every path through [send]: connected or not, each answer of the
    store, each end of the normalisation loop. *)
Ltac send_cases env value s :=
  unfold send, ensure_connected, connect, insert;
  destruct (collection s); destruct (connect_error env);
  destruct (normalize value); destruct (insert_error env); simpl.

Lemma send_effects_no_handler env value dt now s e :
  In e (snd (send env value dt now s)) -> is_handler_call e = false.
Proof.
  send_cases env value s; intuition (subst; reflexivity).
Qed.

Lemma removeEvent_effects_no_handler answer id s e :
  In e (snd (removeEvent answer id s)) -> is_handler_call e = false.
Proof.
  unfold removeEvent.
  destruct (collection s); [destruct (new_ObjectId id); [destruct answer|]|];
    simpl; intuition (subst; reflexivity).
Qed.

Lemma settle_tick_found_handler now limit answer s batch :
  In (EHandler batch) (snd (settle (tick_found now limit answer s))) ->
  batch = find_due now limit (docs s).
Proof.
  unfold tick_found.
  destruct answer as [e|]; simpl.
  - intros [H|[]]. discriminate.
  - destruct (find_due now limit (docs s)) as [|d rest]; simpl.
    + intros [].
    + intros [H|[]]. now inversion H.
Qed.

(** Every batch a step hands to the handler is the answer of the query
    on the collection as it is at that step. *)
Lemma step_handler_batch (ev : Event) (s : State) (batch : list Doc) :
  In (EHandler batch) (snd (step ev s)) ->
  exists now limit, batch = find_due now limit (docs s) /\ batch <> [].
Proof.
  destruct ev as [now limit|i answer|i answer|env value dt now|ans id]; simpl.
  - unfold tick_start. destruct (isRun s); simpl; [intros []|].
    destruct (collection s); simpl; intros [H|[]]; discriminate.
  - destruct (nth_error (pending s) i) as [[now limit|]|]; simpl; try easy.
    intros H. exists now, limit.
    assert (Hb := settle_tick_found_handler _ _ _ _ _ H). simpl in Hb.
    split; [exact Hb|].
    intros ->. revert H. unfold tick_found.
    destruct answer; simpl.
    + intros [H|[]]; discriminate.
    + simpl in Hb. rewrite <- Hb. simpl. intros [].
  - destruct (nth_error (pending s) i) as [[now limit|]|]; simpl; try easy.
    destruct answer; simpl; [intros [H|[]]; discriminate | intros []].
  - intros H.
    assert (Hn := send_effects_no_handler env value dt now s (EHandler batch)).
    destruct (send env value dt now s) as [[r s'] eff]. simpl in *.
    specialize (Hn H). discriminate.
  - intros H.
    assert (Hn := removeEvent_effects_no_handler ans id s (EHandler batch)).
    destruct (removeEvent ans id s) as [[r s'] eff]. simpl in *.
    specialize (Hn H). discriminate.
Qed.

Lemma NoDup_dates_filter (f : Doc -> bool) (l : list Doc) :
  NoDup (map date l) -> NoDup (map date (filter f l)).
Proof.
  induction l as [|d rest IH]; simpl; intros H.
  - constructor.
  - inversion H as [|? ? Hnotin Hnd]; subst.
    destruct (f d); simpl; [|now apply IH].
    constructor; [|now apply IH].
    intros Hin. apply Hnotin.
    apply in_map_iff in Hin. destruct Hin as [x [Hx Hf]].
    apply in_map_iff. exists x. split; [exact Hx|].
    now apply filter_In in Hf.
Qed.

Lemma sorted_distinct_strict (l : list Doc) :
  StronglySorted by_date l -> NoDup (map date l) ->
  StronglySorted by_date_strict l.
Proof.
  induction 1 as [|a rest Hs IH Hall]; simpl; intros Hnd.
  - constructor.
  - inversion Hnd as [|? ? Hnotin Hnd']; subst.
    constructor; [now apply IH|].
    rewrite Forall_forall in *. intros x Hx.
    specialize (Hall x Hx). unfold by_date, by_date_strict in *.
    assert (date a <> date x).
    { intros Heq. apply Hnotin. rewrite Heq. now apply in_map. }
    lia.
Qed.

Lemma find_due_distinct (now limit : Z) (l : list Doc) :
  NoDup (map date l) -> NoDup (map date (find_due now limit l)).
Proof.
  intros Hnd.
  destruct (cursor_limit_split limit (sort_by_date (filter (due now) l)))
    as [rest [Heq _]].
  assert (Hperm : Permutation (filter (due now) l) (find_due now limit l ++ rest)).
  { unfold find_due. rewrite <- Heq. apply sort_by_date_perm. }
  apply (NoDup_dates_filter (due now)) in Hnd.
  apply (Permutation_map date) in Hperm.
  apply (Permutation_NoDup Hperm) in Hnd.
  rewrite map_app in Hnd. now apply NoDup_app_remove_r in Hnd.
Qed.

(** C5: when the records of the collection have distinct [date]s, every
    batch a poll cycle hands to the handler is in ascending [date] order:
    each record is scheduled no later than (and, the dates being distinct,
    strictly before) the records after it. *)
Theorem delivered_batch_sorted (ev : Event) (s : State) (batch : list Doc) :
  NoDup (map date (docs s)) ->
  In (EHandler batch) (snd (step ev s)) ->
  StronglySorted by_date batch /\ StronglySorted by_date_strict batch.
Proof.
  intros Hnd Hin.
  destruct (step_handler_batch ev s batch Hin) as [now [limit [-> _]]].
  assert (Hs := find_due_sorted now limit (docs s)).
  split; [exact Hs|].
  apply sorted_distinct_strict; [exact Hs|].
  now apply find_due_distinct.
Qed.

Lemma delivered_batch_sorted_witness :
  let batch := [mkDoc 3%N [] 10 false false; mkDoc 2%N [] 30 false false;
                mkDoc 1%N [] 50 false false] in
  snd (step (FindSettled 0 None) (awaiting_find 100 10 three_records))
    = [EHandler batch] /\
  StronglySorted by_date batch /\ StronglySorted by_date_strict batch.
Proof.
  cbv zeta. split; [reflexivity|].
  apply (delivered_batch_sorted (FindSettled 0 None)
           (awaiting_find 100 10 three_records)).
  - simpl. repeat constructor; simpl; intuition discriminate.
  - simpl. now left.
Defined.

(** ** Single flight *)

Lemma send_keeps_guard env value dt now s :
  isRun (snd (fst (send env value dt now s))) = isRun s /\
  pending (snd (fst (send env value dt now s))) = pending s.
Proof.
  send_cases env value s; auto.
Qed.

Lemma removeEvent_keeps_guard answer id s :
  isRun (snd (fst (removeEvent answer id s))) = isRun s /\
  pending (snd (fst (removeEvent answer id s))) = pending s.
Proof.
  unfold removeEvent.
  destruct (collection s); [destruct (new_ObjectId id); [destruct answer|]|];
    simpl; auto.
Qed.

Lemma pending_one (l : list Phase) (i : nat) (p : Phase) :
  (List.length l <= 1)%nat -> nth_error l i = Some p ->
  l = [p] /\ remove_nth i l = [].
Proof.
  destruct l as [|x [|y rest]]; simpl; intros Hlen Hnth.
  - destruct i; discriminate.
  - destruct i as [|j]; simpl in *.
    + inversion Hnth. auto.
    + destruct j; discriminate.
  - lia.
Qed.

Lemma step_keeps_single_flight (ev : Event) (s : State) :
  single_flight_inv s -> single_flight_inv (fst (step ev s)).
Proof.
  unfold single_flight_inv. intros [Hlen Hrun].
  destruct ev as [now limit|i answer|i answer|env value dt now|ans id]; simpl.
  - unfold tick_start. destruct (isRun s) eqn:Er; simpl; [now rewrite Er|].
    assert (Hp : pending s = []).
    { destruct (pending s) eqn:Ep; [reflexivity|].
      assert (false = true) by (apply Hrun; discriminate). discriminate. }
    destruct (collection s); simpl; rewrite Hp; simpl.
    + split; [lia | reflexivity].
    + split; [lia | intros H; now elim H].
  - destruct (nth_error (pending s) i) as [[now limit|]|] eqn:En; simpl;
      try (split; assumption).
    destruct (pending_one _ _ _ Hlen En) as [Hp Hrm]. rewrite Hrm.
    unfold tick_found. destruct answer as [e|]; simpl.
    + split; [lia | intros H; now elim H].
    + destruct (find_due now limit (docs s)); simpl.
      * split; [lia | intros H; now elim H].
      * split; [lia|]. intros _. apply Hrun. rewrite Hp. discriminate.
  - destruct (nth_error (pending s) i) as [[now limit|]|] eqn:En; simpl;
      try (split; assumption).
    destruct (pending_one _ _ _ Hlen En) as [Hp Hrm]. rewrite Hrm.
    destruct answer as [e|]; simpl; (split; [lia | intros H; now elim H]).
  - destruct (send_keeps_guard env value dt now s) as [Hr Hp].
    destruct (send env value dt now s) as [[r s'] eff]. simpl in *.
    rewrite Hr, Hp. split; assumption.
  - destruct (removeEvent_keeps_guard ans id s) as [Hr Hp].
    destruct (removeEvent ans id s) as [[r s'] eff]. simpl in *.
    rewrite Hr, Hp. split; assumption.
Qed.

Lemma run_keeps_single_flight (evs : list Event) (s : State) :
  single_flight_inv s -> single_flight_inv (fst (run evs s)).
Proof.
  revert s. induction evs as [|ev rest IH]; simpl; intros s Hinv.
  - exact Hinv.
  - assert (H1 := step_keeps_single_flight ev s Hinv).
    destruct (step ev s) as [s1 eff1]. simpl in H1.
    specialize (IH s1 H1).
    destruct (run rest s1) as [s2 eff2]. exact IH.
Qed.

(** C4: in a process that starts with no callback suspended, at any
    later moment at most one poll cycle is suspended, a suspended cycle
    keeps the guard set, and a tick that fires while the guard is set
    changes nothing and does nothing: no query, no handler call. *)
Theorem single_flight (evs : list Event) (s0 : State) (now limit : Z) :
  pending s0 = [] ->
  let s := fst (run evs s0) in
  (List.length (pending s) <= 1)%nat /\
  (pending s <> [] -> isRun s = true) /\
  (isRun s = true -> step (Tick now limit) s = (s, [])).
Proof.
  intros Hp0 s.
  assert (Hinv : single_flight_inv s).
  { apply run_keeps_single_flight. unfold single_flight_inv.
    rewrite Hp0. simpl. split; [lia | intros H; now elim H]. }
  destruct Hinv as [Hlen Hrun]. repeat split; try assumption.
  intros Er. simpl. unfold tick_start. rewrite Er. reflexivity.
Qed.

Lemma single_flight_witness :
  let s0 := set_collection true (new_GrattisEvent three_records 10%N) in
  let s := fst (run [Tick 100 10; FindSettled 0 None; Tick 200 10] s0) in
  pending s = [AwaitHandler] /\ isRun s = true /\
  step (Tick 300 10) s = (s, []).
Proof.
  cbv zeta.
  destruct (single_flight [Tick 100 10; FindSettled 0 None; Tick 200 10]
              (set_collection true (new_GrattisEvent three_records 10%N))
              300 10 eq_refl) as [_ [Hrun Htick]].
  split; [reflexivity|]. split.
  - apply Hrun. discriminate.
  - apply Htick. apply Hrun. discriminate.
Defined.

(** ** Errors inside a poll cycle *)

Lemma catch_never_raises (seg : Segment) (e : Error) :
  fst (fst (catch seg)) <> Raise e.
Proof.
  destruct seg as [[[ | e' | p] s] eff]; simpl; discriminate.
Qed.

(** C6: when the query or the handler of a suspended poll cycle fails
    with [e], the error is raised inside the body, the callback still
    returns normally (no segment of it ever ends by raising), the one
    thing done is to log [e], the guard is cleared, and the next tick of a
    connected instance issues a query again. *)
Theorem poll_errors_are_swallowed (s : State) (i : nat) (p : Phase) (e : Error)
                                  (now' limit' : Z) :
  nth_error (pending s) i = Some p ->
  let body := failing_segment p e (set_pending (remove_nth i (pending s)) s) in
  let s' := fst (step (failure_of p i e) s) in
  fst (fst body) = Raise e /\
  fst (fst (catch body)) = Return /\
  (forall seg e', fst (fst (catch seg)) <> Raise e') /\
  snd (step (failure_of p i e) s) = [ELog e] /\
  isRun s' = false /\
  pending s' = remove_nth i (pending s) /\
  docs s' = docs s /\
  (collection s = true ->
   snd (step (Tick now' limit') s') = [EFind now' limit']).
Proof.
  intros Hnth. cbv zeta.
  destruct p as [now limit|]; simpl; rewrite Hnth; simpl;
    (repeat split; try exact catch_never_raises);
    intros Hc; unfold tick_start; simpl; rewrite Hc; reflexivity.
Qed.

Lemma poll_errors_are_swallowed_witness :
  let s := awaiting_find 100 10 three_records in
  let s' := fst (step (FindSettled 0 (Some (QueryError 7))) s) in
  snd (step (FindSettled 0 (Some (QueryError 7))) s) = [ELog (QueryError 7)] /\
  isRun s' = false /\
  snd (step (Tick 200 10) s') = [EFind 200 10].
Proof.
  cbv zeta.
  destruct (poll_errors_are_swallowed (awaiting_find 100 10 three_records)
              0 (AwaitFind 100 10) (QueryError 7) 200 10 eq_refl)
    as [_ [_ [_ [Hlog [Hrun [_ [_ Hnext]]]]]]].
  split; [exact Hlog|]. split; [exact Hrun|].
  apply Hnext. reflexivity.
Defined.

(** ** A poll cycle whose query finds nothing *)

(** With an empty answer the callback returns from inside the [try]
    block: the handler is not called and no field is written, so [isRun]
    keeps the value the cycle gave it. *)
Lemma empty_result_returns_early (s : State) (i : nat) (now limit : Z) :
  nth_error (pending s) i = Some (AwaitFind now limit) ->
  find_due now limit (docs s) = [] ->
  step (FindSettled i None) s = (set_pending (remove_nth i (pending s)) s, []).
Proof.
  intros Hnth Hempty. simpl. rewrite Hnth.
  unfold tick_found. simpl. rewrite Hempty. reflexivity.
Qed.

(** C1, evaluated: on a connected instance with an empty collection the
    first tick issues its query, the empty answer ends the cycle without a
    handler call, and the guard is still set; a record enqueued afterwards
    is due at the later ticks, yet these issue no query and call no
    handler. *)
Lemma empty_poll_leaves_guard_set :
  let s0 := set_collection true (new_GrattisEvent [] 1%N) in
  let s1 := fst (run [Tick 100 10; FindSettled 0 None] s0) in
  let later := run [CallSend store_up [("type", VString "welcome")] (Some 150) 150;
                    Tick 200 10; Tick 300 10] s1 in
  snd (run [Tick 100 10; FindSettled 0 None] s0) = [EFind 100 10] /\
  pending s1 = [] /\
  isRun s1 = true /\
  find_due 200 10 (docs (fst later)) <> [] /\
  filter is_query (snd later) = [] /\
  filter is_handler_call (snd later) = [].
Proof.
  cbv zeta. repeat split; try reflexivity.
  vm_compute. discriminate.
Qed.

(** ** send *)

(** A string value leaves the [forEach] callback at its first test, so a
    payload of strings comes out as it went in. *)
Lemma normalize_strings (value : Payload) :
  all_strings value -> normalize value = Ok value.
Proof.
  induction 1 as [|[key val] rest Hs _ IH]; simpl.
  - reflexivity.
  - simpl in Hs. rewrite Hs. simpl. rewrite IH. reflexivity.
Qed.

(** Any other value reaches [val.match], which it does not have. *)
Lemma normalize_non_string (value : Payload) :
  Exists (fun kv => typeof_is_string (snd kv) = false) value ->
  normalize value = Throw TypeError.
Proof.
  induction 1 as [[key val] rest Hn|[key val] rest _ IH]; simpl.
  - simpl in Hn. rewrite Hn. destruct val; simpl; try reflexivity.
    discriminate.
  - destruct (typeof_is_string val) eqn:E; simpl.
    + rewrite IH. reflexivity.
    + destruct val; simpl; try reflexivity. discriminate.
Qed.

(** A payload that passes the loop comes out as it went in: the only
    branch that rewrites a value is behind [val.match], which no value that
    gets there has. *)
Lemma normalize_ok_same (value value' : Payload) :
  normalize value = Ok value' -> value' = value /\ all_strings value.
Proof.
  revert value'. induction value as [|[key val] rest IH]; simpl; intros value' H.
  - inversion H. split; [reflexivity | constructor].
  - destruct val; simpl in H; try discriminate.
    destruct (normalize rest) as [rest'|e]; simpl in H; [|discriminate].
    inversion H. destruct (IH rest' eq_refl) as [-> Hall].
    split; [reflexivity|]. constructor; [reflexivity | exact Hall].
Qed.

(** With any other payload [send] throws before the insert. *)
Lemma send_non_string_throws (env : Env) (value : Payload) (dt : option Z)
                             (now : Z) (s : State) :
  Exists (fun kv => typeof_is_string (snd kv) = false) value ->
  connect_error env = None ->
  fst (fst (send env value dt now s)) = Throw TypeError /\
  docs (snd (fst (send env value dt now s))) = docs s.
Proof.
  intros Hn Hc. unfold send, ensure_connected, connect.
  rewrite Hc, (normalize_non_string value Hn).
  destruct (collection s); simpl; auto.
Qed.

(** C7, as stated, fails: a call of [send] whose insert the store
    rejects ends in that error with nothing inserted, and so does a call
    whose payload holds a number, which ends in a TypeError. *)
Lemma send_call_without_insert :
  let s0 := new_GrattisEvent [] 1%N in
  let refusing := mkEnv None (Some (WriteError 1)) in
  send refusing [("type", VString "welcome")] None 100 s0
    = (Throw (WriteError 1), set_collection true s0, [EConnect]) /\
  send store_up [("count", VNumber 1)] (Some 500) 100 s0
    = (Throw TypeError, set_collection true s0, [EConnect]) /\
  docs (set_collection true s0) = [].
Proof.
  cbv zeta. repeat split; reflexivity.
Qed.

(** C7, amended: a call of [send] that completes without error has
    added exactly one record, at the end of the collection: the payload,
    the given date or else the time of the call, both flags false; a call
    that ends in an error has added none; and a call with a payload of
    strings completes without error when the store accepts the connection
    (or the instance is connected) and the insert. *)
Theorem send_inserts_one_record (env : Env) (value : Payload) (dt : option Z)
                                (now : Z) (s : State) :
  let d := mkDoc (nextId s) value
                 match dt with Some t => t | None => now end false false in
  let after := snd (fst (send env value dt now s)) in
  (fst (fst (send env value dt now s)) = Ok tt ->
   docs after = docs s ++ [d] /\
   isWork d = false /\ isDone d = false /\
   filter (fun e => match e with EInsert _ => true | _ => false end)
          (snd (send env value dt now s)) = [EInsert d]) /\
  (fst (fst (send env value dt now s)) <> Ok tt -> docs after = docs s) /\
  (all_strings value ->
   collection s = true \/ connect_error env = None ->
   insert_error env = None ->
   fst (fst (send env value dt now s)) = Ok tt).
Proof.
  cbv zeta. unfold send, ensure_connected, connect, insert.
  destruct (normalize value) as [value'|e] eqn:En.
  - destruct (normalize_ok_same value value' En) as [-> Hall].
    destruct (collection s) eqn:Ec; destruct (connect_error env) as [ce|];
      destruct (insert_error env) as [ie|]; simpl;
      (split; [intros H; try discriminate; auto|]);
      (split; [intros H; try reflexivity; now elim H|]);
      intros _ Hc Hi; try discriminate; try reflexivity;
      destruct Hc; discriminate.
  - assert (Hns : ~ all_strings value).
    { intros Hall. rewrite (normalize_strings value Hall) in En. discriminate. }
    destruct (collection s) eqn:Ec; destruct (connect_error env) as [ce|];
      simpl;
      (split; [intros H; discriminate|]);
      (split; [intros H; reflexivity|]);
      intros Hall; contradiction.
Qed.

Lemma send_inserts_one_record_witness :
  let s0 := new_GrattisEvent [] 1%N in
  let payload := [("type", VString "welcome");
                  ("userId", VString "507f191e810c19729de860ea")] in
  fst (fst (send store_up payload None 100 s0)) = Ok tt /\
  docs (snd (fst (send store_up payload None 100 s0)))
    = [mkDoc 1%N payload 100 false false].
Proof.
  cbv zeta.
  destruct (send_inserts_one_record store_up
              [("type", VString "welcome");
               ("userId", VString "507f191e810c19729de860ea")]
              None 100 (new_GrattisEvent [] 1%N)) as [Hins [_ Hok]].
  assert (Hr : fst (fst (send store_up
                           [("type", VString "welcome");
                            ("userId", VString "507f191e810c19729de860ea")]
                           None 100 (new_GrattisEvent [] 1%N))) = Ok tt).
  { apply Hok.
    - repeat constructor.
    - right. reflexivity.
    - reflexivity. }
  split; [exact Hr|]. apply (Hins Hr).
Defined.

(** C2, evaluated on the payload of P5: the record is stored with [ref]
    still a string of 24 hexadecimal digits, not a reference; and a payload
    with a number is not stored at all, as [send] throws a TypeError. *)
Lemma send_keeps_reference_text :
  let payload := [("ref", VString "507f1f77bcf86cd799439011");
                  ("note", VString "hi")] in
  let s0 := new_GrattisEvent [] 1%N in
  isObjectId (VString "507f1f77bcf86cd799439011")
    = Ok (Some "507f1f77bcf86cd799439011") /\
  map value (docs (snd (fst (send store_up payload None 100 s0)))) = [payload] /\
  fst (fst (send store_up [("n", VNumber 5)] None 100 s0)) = Throw TypeError /\
  docs (snd (fst (send store_up [("n", VNumber 5)] None 100 s0))) = [].
Proof.
  cbv zeta. repeat split; reflexivity.
Qed.

(** ** removeEvent *)

Lemma deleteOne_absent (o : ObjectId) (l : list Doc) :
  ~ In o (map _id l) -> deleteOne o l = l.
Proof.
  induction l as [|d rest IH]; simpl; intros Hn.
  - reflexivity.
  - destruct (N.eqb (_id d) o) eqn:E.
    + apply N.eqb_eq in E. exfalso. apply Hn. now left.
    + rewrite IH; [reflexivity|]. intros H. apply Hn. now right.
Qed.

Lemma deleteOne_removes (o : ObjectId) (l : list Doc) :
  NoDup (map _id l) -> ~ In o (map _id (deleteOne o l)).
Proof.
  induction l as [|d rest IH]; simpl; intros Hnd.
  - intros [].
  - inversion Hnd as [|? ? Hnotin Hnd']; subst.
    destruct (N.eqb (_id d) o) eqn:E.
    + apply N.eqb_eq in E. now subst.
    + apply N.eqb_neq in E. simpl. intros [H|H]; [contradiction|].
      now apply IH in H.
Qed.

(** C8, as stated, fails twice over: on a new instance, before anything
    has connected, a well-formed identifier that was never inserted raises
    a TypeError, even with a store that would accept the delete; on a
    connected instance an identifier the constructor does not accept, hence
    never inserted either, raises the constructor's error. *)
Lemma removeEvent_unknown_id_raises :
  let id := IdString "507f1f77bcf86cd799439011" in
  let fresh := new_GrattisEvent [] 1%N in
  new_ObjectId id = Ok 24912482966938930280208240657%N /\
  fst (fst (removeEvent None id fresh)) = Throw TypeError /\
  fst (fst (removeEvent None (IdString "order-17") (set_collection true fresh)))
    = Throw BSONError.
Proof.
  cbv zeta. repeat split; reflexivity.
Qed.

(** C8, amended: on an instance whose collection handle is set, with an
    identifier the ObjectId constructor accepts and a store that accepts
    the delete, [removeEvent] raises no error, and neither does a second
    call with the same identifier; when no record has this identifier the
    collection is left as it was, and when identifiers are unique the
    second call changes nothing.  When the store rejects the delete, its
    error leaves [removeEvent] and the collection is left as it was. *)
Theorem removeEvent_idempotent (id : EventId) (o : ObjectId) (s : State) :
  collection s = true ->
  new_ObjectId id = Ok o ->
  let first := removeEvent None id s in
  let second := removeEvent None id (snd (fst first)) in
  fst (fst first) = Ok tt /\
  fst (fst second) = Ok tt /\
  (~ In o (map _id (docs s)) -> docs (snd (fst first)) = docs s) /\
  (NoDup (map _id (docs s)) -> docs (snd (fst second)) = docs (snd (fst first))) /\
  (forall e, removeEvent (Some e) id s = (Throw e, s, [EDelete o])).
Proof.
  intros Hc Hid. cbv zeta. unfold removeEvent.
  rewrite Hc, Hid. simpl. rewrite ?Hc, ?Hid. simpl.
  repeat split.
  - apply deleteOne_absent.
  - intros Hnd. apply deleteOne_absent. now apply deleteOne_removes.
Qed.

Lemma removeEvent_idempotent_witness :
  let id := IdObject 2%N in
  let s := set_collection true (new_GrattisEvent three_records 10%N) in
  fst (fst (removeEvent None id s)) = Ok tt /\
  fst (fst (removeEvent None id (snd (fst (removeEvent None id s))))) = Ok tt /\
  docs (snd (fst (removeEvent None id (snd (fst (removeEvent None id s))))))
    = docs (snd (fst (removeEvent None id s))).
Proof.
  cbv zeta.
  destruct (removeEvent_idempotent (IdObject 2%N) 2%N
              (set_collection true (new_GrattisEvent three_records 10%N))
              eq_refl eq_refl) as [H1 [H2 [_ [H4 _]]]].
  split; [exact H1|]. split; [exact H2|].
  apply H4. simpl. repeat constructor; simpl; intuition discriminate.
Defined.

(** C9: on an instance whose collection handle is still null,
    [removeEvent] throws a TypeError whatever the identifier and whatever
    the store would answer, leaves the instance as it was and asks nothing
    of the store; [send] and [getItems] in the same state begin by
    connecting. *)
Theorem removeEvent_does_not_connect (env : Env) (answer : option Error)
    (eventId : EventId) (payload : Payload) (dt : option Z) (now : Z)
    (s : State) :
  collection s = false ->
  removeEvent answer eventId s = (Throw TypeError, s, []) /\
  (exists eff, snd (send env payload dt now s) = EConnect :: eff) /\
  snd (getItems env s) = [EConnect] /\
  (connect_error env = None ->
   collection (snd (fst (getItems env s))) = true /\
   collection (snd (fst (send env payload dt now s))) = true).
Proof.
  intros Hc. unfold removeEvent, send, getItems, ensure_connected, connect, insert.
  rewrite Hc. split; [reflexivity|].
  destruct (connect_error env) as [e|]; simpl.
  - split; [now exists []|]. split; [reflexivity|]. discriminate.
  - destruct (normalize payload); destruct (insert_error env); simpl;
      (split; [eexists; reflexivity|]); (split; [reflexivity|]); auto.
Qed.

Lemma removeEvent_does_not_connect_witness :
  let s := new_GrattisEvent three_records 10%N in
  removeEvent None (IdObject 2%N) s = (Throw TypeError, s, []) /\
  collection (snd (fst (getItems store_up s))) = true.
Proof.
  cbv zeta.
  destruct (removeEvent_does_not_connect store_up None (IdObject 2%N) [] None 0
              (new_GrattisEvent three_records 10%N) eq_refl)
    as [H1 [_ [_ H4]]].
  split; [exact H1|]. apply H4. reflexivity.
Defined.





(** * Further properties of the code *)

(** ** send: outcome and visibility *)

Lemma normalize_outcome (value : Payload) :
  normalize value = if all_stringsb value then Ok value else Throw TypeError.
Proof.
  induction value as [|[key val] rest IH]; simpl.
  - reflexivity.
  - destruct val; simpl; try reflexivity.
    rewrite IH. destruct (all_stringsb rest); reflexivity.
Qed.

(** X1: errors of the store pass through [send], in order.  On an
    instance without a collection handle a rejected [connect] ends [send]
    in that error whatever the payload, with nothing else asked of the
    store and the handle still null.  With a payload of strings the call
    ends in the error of [connect] if there is one, else in the error of
    the insert if there is one, and otherwise succeeds. *)
Theorem send_outcome (env : Env) (value : Payload) (dt : option Z) (now : Z)
                     (s : State) :
  (forall e, collection s = false -> connect_error env = Some e ->
             send env value dt now s = (Throw e, s, [EConnect])) /\
  (all_stringsb value = true ->
   fst (fst (send env value dt now s)) =
     match (if collection s then None else connect_error env) with
     | Some e => Throw e
     | None =>
         match insert_error env with
         | Some e => Throw e
         | None => Ok tt
         end
     end).
Proof.
  unfold send, ensure_connected, connect, insert. split.
  - intros e Hc He. rewrite Hc, He. reflexivity.
  - intros Hs. rewrite normalize_outcome, Hs.
    destruct (collection s); destruct (connect_error env);
      destruct (insert_error env); reflexivity.
Qed.

Lemma send_outcome_witness :
  let s := new_GrattisEvent three_records 10%N in
  send (mkEnv (Some (ConnectionError 2)) None) [("n", VNumber 5)] None 100 s
    = (Throw (ConnectionError 2), s, [EConnect]) /\
  fst (fst (send (mkEnv None (Some (WriteError 4))) [("a", VString "b")] None 100 s))
    = Throw (WriteError 4).
Proof.
  cbv zeta. split.
  - apply (send_outcome (mkEnv (Some (ConnectionError 2)) None)
             [("n", VNumber 5)] None 100 (new_GrattisEvent three_records 10%N));
      reflexivity.
  - apply (send_outcome (mkEnv None (Some (WriteError 4)))
             [("a", VString "b")] None 100 (new_GrattisEvent three_records 10%N)).
    reflexivity.
Defined.

(** What [send] leaves in the collection: the old records, and after
    them at most the new one, dated as asked. *)
Lemma send_docs (env : Env) (value : Payload) (dt : option Z) (now : Z)
                (s : State) :
  docs (snd (fst (send env value dt now s))) = docs s \/
  (fst (fst (send env value dt now s)) = Ok tt /\
   docs (snd (fst (send env value dt now s)))
     = docs s ++ [mkDoc (nextId s) value (date_or_now dt now) false false]).
Proof.
  unfold send, ensure_connected, connect, insert, date_or_now.
  rewrite normalize_outcome.
  destruct (collection s); destruct (connect_error env);
    destruct (all_stringsb value); destruct (insert_error env); simpl; auto.
Qed.

(** X2: a record enqueued for a time at or after the time of a query
    does not change what that query returns.  In particular a record sent
    without a date is not returned by a query made at the very time of the
    call. *)
Theorem send_scheduled_later_is_invisible (env : Env) (value : Payload)
    (dt : option Z) (now : Z) (s : State) (query_time limit : Z) :
  query_time <= date_or_now dt now ->
  find_due query_time limit (docs (snd (fst (send env value dt now s))))
    = find_due query_time limit (docs s).
Proof.
  intros Hle.
  destruct (send_docs env value dt now s) as [->|[_ ->]]; [reflexivity|].
  unfold find_due. rewrite filter_app. simpl.
  replace (due query_time
             (mkDoc (nextId s) value (date_or_now dt now) false false))
    with false.
  - now rewrite app_nil_r.
  - symmetry. unfold due. simpl. apply andb_false_iff. left.
    apply andb_false_iff. left. apply Z.ltb_ge. exact Hle.
Qed.

Lemma send_scheduled_later_is_invisible_witness :
  let s := set_collection true (new_GrattisEvent three_records 10%N) in
  find_due 100 10 (docs (snd (fst (send store_up [("type", VString "welcome")]
                                        None 100 s))))
    = find_due 100 10 three_records.
Proof.
  cbv zeta.
  apply (send_scheduled_later_is_invisible store_up [("type", VString "welcome")]
           None 100
           (set_collection true (new_GrattisEvent three_records 10%N)) 100 10).
  simpl. lia.
Defined.

Lemma cursor_limit_all (limit : Z) (l : list Doc) :
  match limit_count limit with
  | None => True
  | Some n => (List.length l <= n)%nat
  end ->
  cursor_limit limit l = l.
Proof.
  unfold limit_count, cursor_limit. destruct (limit =? 0); [reflexivity|].
  intros H. now apply firstn_all2.
Qed.

(** X3: a record [send] has stored is returned by every query made
    after its date, provided the limit leaves room: the limit is 0 (none),
    or the records already due are fewer than the limit. *)
Theorem send_becomes_visible (env : Env) (value : Payload) (dt : option Z)
    (now : Z) (s : State) (query_time limit : Z) :
  fst (fst (send env value dt now s)) = Ok tt ->
  date_or_now dt now < query_time ->
  match limit_count limit with
  | None => True
  | Some n => (List.length (filter (due query_time) (docs s)) < n)%nat
  end ->
  In (mkDoc (nextId s) value (date_or_now dt now) false false)
     (find_due query_time limit (docs (snd (fst (send env value dt now s))))).
Proof.
  intros Hok Hlt Hroom.
  set (d := mkDoc (nextId s) value (date_or_now dt now) false false).
  assert (Hdocs : docs (snd (fst (send env value dt now s))) = docs s ++ [d]).
  { destruct (send_docs env value dt now s) as [Hsame|[_ Happ]]; [|exact Happ].
    exfalso. revert Hok Hsame.
    unfold send, ensure_connected, connect, insert. rewrite normalize_outcome.
    destruct (collection s); destruct (connect_error env);
      destruct (all_stringsb value); destruct (insert_error env); simpl;
      try discriminate; intros _ H;
      apply (f_equal (@List.length Doc)) in H; rewrite length_app in H;
      simpl in H; lia. }
  rewrite Hdocs. unfold find_due.
  assert (Hdue : due query_time d = true).
  { apply due_spec. simpl. auto. }
  rewrite cursor_limit_all.
  - eapply Permutation_in; [apply sort_by_date_perm|].
    apply filter_In. split; [|exact Hdue]. apply in_or_app. right. now left.
  - destruct (limit_count limit) as [n|]; [|exact I].
    rewrite <- (Permutation_length (sort_by_date_perm _)).
    rewrite filter_app, length_app. simpl. rewrite Hdue. simpl. lia.
Qed.

Lemma send_becomes_visible_witness :
  let s := set_collection true (new_GrattisEvent three_records 10%N) in
  In (mkDoc 10%N [("type", VString "welcome")] 100 false false)
     (find_due 101 10
        (docs (snd (fst (send store_up [("type", VString "welcome")]
                              None 100 s))))).
Proof.
  cbv zeta.
  apply (send_becomes_visible store_up [("type", VString "welcome")] None 100
           (set_collection true (new_GrattisEvent three_records 10%N)) 101 10).
  - reflexivity.
  - simpl. lia.
  - simpl. lia.
Defined.

(** ** Redelivery *)

Lemma insert_before_later (d : Doc) (a b : list Doc) :
  Forall (fun y => date d <= date y) b ->
  insert_by_date d (a ++ b) = insert_by_date d a ++ b.
Proof.
  intros Hb. induction a as [|x a IH]; simpl.
  - destruct b as [|y b]; simpl; [reflexivity|].
    inversion Hb as [|? ? Hy _]; subst.
    apply Z.leb_le in Hy. now rewrite Hy.
  - destruct (date d <=? date x); [reflexivity|].
    now rewrite IH.
Qed.

Lemma insert_after_earlier (d : Doc) (a b : list Doc) :
  Forall (fun x => date x < date d) a ->
  insert_by_date d (a ++ b) = a ++ insert_by_date d b.
Proof.
  induction 1 as [|x a Hx _ IH]; simpl.
  - reflexivity.
  - apply Z.leb_gt in Hx. rewrite Hx. now rewrite IH.
Qed.

Lemma sorted_due_dates (now : Z) (l : list Doc) :
  Forall (fun x => date x < now) (sort_by_date (filter (due now) l)).
Proof.
  eapply Permutation_Forall; [apply sort_by_date_perm|].
  apply Forall_forall. intros x Hx. apply filter_In in Hx.
  destruct Hx as [_ Hx]. now apply due_spec in Hx.
Qed.

(** The records due at a later time, in order, are those due now, in
    order, followed by records dated from now on. *)
Lemma sort_due_later (now later : Z) (l : list Doc) :
  now <= later ->
  exists more,
    sort_by_date (filter (due later) l)
      = sort_by_date (filter (due now) l) ++ more /\
    Forall (fun y => now <= date y) more.
Proof.
  intros Hle. induction l as [|x l [more [IH Hmore]]]; simpl.
  - exists []. split; [reflexivity | constructor].
  - destruct (due now x) eqn:En.
    + assert (El : due later x = true).
      { apply due_spec in En. apply due_spec. intuition lia. }
      rewrite El. simpl. rewrite IH. exists more. split; [|exact Hmore].
      apply insert_before_later.
      apply due_spec in En. eapply Forall_impl; [|exact Hmore].
      simpl. intros y Hy. lia.
    + destruct (due later x) eqn:El; simpl.
      * rewrite IH. exists (insert_by_date x more). split.
        -- apply insert_after_earlier.
           assert (Hnow : now <= date x).
           { apply due_spec in El. destruct El as [_ [Hw Hd]].
             destruct (Z.lt_ge_cases (date x) now) as [Hlt|Hge]; [|exact Hge].
             assert (due now x = true) by (apply due_spec; auto).
             congruence. }
           eapply Forall_impl; [|apply sorted_due_dates].
           simpl. intros y Hy. lia.
        -- eapply Permutation_Forall; [apply insert_by_date_perm|].
           constructor; [|exact Hmore].
           apply due_spec in El. destruct El as [_ [Hw Hd]].
           destruct (Z.lt_ge_cases (date x) now) as [Hlt|Hge]; [|exact Hge].
           assert (due now x = true) by (apply due_spec; auto).
           congruence.
      * exists more. split; assumption.
Qed.

(** X4: on an unchanged collection whose records have distinct dates,
    the batch of a later query with the same limit begins with the batch of
    the earlier one, in the same order: what the handler did not delete is
    delivered again, ahead of the records that have become due since. *)
Theorem find_due_again (now later limit : Z) (l : list Doc) :
  NoDup (map date l) ->
  now <= later ->
  exists more, find_due later limit l = find_due now limit l ++ more.
Proof.
  intros _ Hle.
  destruct (sort_due_later now later l Hle) as [more [Heq _]].
  unfold find_due, cursor_limit. rewrite Heq.
  destruct (limit =? 0).
  - now exists more.
  - rewrite firstn_app. eexists. reflexivity.
Qed.

Lemma find_due_again_witness :
  exists more, find_due 100 2 three_records = find_due 40 2 three_records ++ more.
Proof.
  apply (find_due_again 40 100 2 three_records).
  - simpl. repeat constructor; simpl; intuition discriminate.
  - lia.
Defined.

(** ** What the timer callback does and does not do *)

Lemma poll_events_keep_connection (ev : Event) (s : State) :
  is_poll_event ev = true ->
  collection (fst (step ev s)) = collection s /\
  filter is_connect (snd (step ev s)) = [].
Proof.
  destruct ev as [now limit|i answer|i answer|env value dt now|ans id]; simpl;
    try discriminate; intros _.
  - unfold tick_start. destruct (isRun s) eqn:Er; simpl; [auto|].
    destruct (collection s) eqn:Ec; simpl; rewrite ?Ec; auto.
  - destruct (nth_error (pending s) i) as [[now limit|]|]; simpl; auto.
    unfold tick_found. destruct answer as [e|]; simpl; auto.
    destruct (find_due now limit (docs s)); simpl; auto.
  - destruct (nth_error (pending s) i) as [[now limit|]|]; simpl; auto.
    destruct answer as [e|]; simpl; auto.
Qed.

(** X5: the events of the timer callback (a tick, the answer of the
    query, the end of the handler) never change the collection, the
    collection handle or the registered intervals, and ask the store for
    neither an insert, nor a delete, nor a connection: completion is left
    to the handler. *)
Theorem poll_events_never_write (ev : Event) (s : State) :
  is_poll_event ev = true ->
  docs (fst (step ev s)) = docs s /\
  nextId (fst (step ev s)) = nextId s /\
  collection (fst (step ev s)) = collection s /\
  timers (fst (step ev s)) = timers s /\
  filter is_store_write (snd (step ev s)) = [] /\
  filter is_connect (snd (step ev s)) = [].
Proof.
  destruct ev as [now limit|i answer|i answer|env value dt now|ans id]; simpl;
    try discriminate; intros _.
  - unfold tick_start. destruct (isRun s) eqn:Er; simpl.
    + repeat split; reflexivity.
    + destruct (collection s) eqn:Ec; simpl; rewrite ?Ec;
        repeat split; reflexivity.
  - destruct (nth_error (pending s) i) as [[now limit|]|]; simpl;
      try (repeat split; reflexivity).
    unfold tick_found. destruct answer as [e|]; simpl;
      [repeat split; reflexivity|].
    destruct (find_due now limit (docs s)); simpl; repeat split; reflexivity.
  - destruct (nth_error (pending s) i) as [[now limit|]|]; simpl;
      try (repeat split; reflexivity).
    destruct answer as [e|]; simpl; repeat split; reflexivity.
Qed.

Lemma poll_events_never_write_witness :
  docs (fst (step (FindSettled 0 None) (awaiting_find 100 10 three_records)))
    = three_records.
Proof.
  apply (poll_events_never_write (FindSettled 0 None)
           (awaiting_find 100 10 three_records) eq_refl).
Defined.

Lemma cursor_limit_length (limit : Z) (l : list Doc) (n : nat) :
  limit_count limit = Some n -> (List.length (cursor_limit limit l) <= n)%nat.
Proof.
  unfold limit_count, cursor_limit. destruct (limit =? 0); [discriminate|].
  intros H. inversion H. apply firstn_le_length.
Qed.

(** X6: when the query of a suspended cycle is answered, the handler is
    called if and only if the batch is not empty, and then once, with
    records of the collection that were scheduled before the time of the
    tick and have both flags unset, no more of them than a limit other than
    0 allows. *)
Theorem handler_gets_bounded_batch (s : State) (i : nat) (now limit : Z) :
  nth_error (pending s) i = Some (AwaitFind now limit) ->
  let batch := find_due now limit (docs s) in
  snd (step (FindSettled i None) s)
    = (if Nat.eqb (List.length batch) 0 then [] else [EHandler batch]) /\
  (forall d, In d batch ->
             In d (docs s) /\ date d < now /\ isWork d = false /\ isDone d = false) /\
  (forall n, limit_count limit = Some n -> (List.length batch <= n)%nat).
Proof.
  intros Hnth. cbv zeta. split; [|split].
  - simpl. rewrite Hnth. unfold tick_found. simpl.
    destruct (find_due now limit (docs s)); reflexivity.
  - intros d Hin. destruct (find_due_subset now limit (docs s) d Hin) as [H1 H2].
    apply due_spec in H2. tauto.
  - intros n Hn. unfold find_due. now apply cursor_limit_length.
Qed.

Lemma handler_gets_bounded_batch_witness :
  snd (step (FindSettled 0 None) (awaiting_find 100 2 three_records))
    = [EHandler (find_due 100 2 three_records)] /\
  (List.length (find_due 100 2 three_records) <= 2)%nat.
Proof.
  destruct (handler_gets_bounded_batch (awaiting_find 100 2 three_records)
              0 100 2 eq_refl) as [Heff [_ Hlen]].
  split; [exact Heff|]. apply Hlen. reflexivity.
Defined.

(** X7: a whole cycle.  On a connected instance with the guard clear and
    at least one record due, a tick, the answer of its query and the end of
    the handler (with or without an error) issue one query and one handler
    call, log the handler's error if there is one, and leave the guard
    clear, nothing suspended and the collection as it was. *)
Theorem full_cycle_returns_to_idle (s : State) (now limit : Z)
                                   (outcome : option Error) :
  collection s = true ->
  isRun s = false ->
  pending s = [] ->
  find_due now limit (docs s) <> [] ->
  let cycle := run [Tick now limit; FindSettled 0 None; HandlerSettled 0 outcome] s in
  snd cycle = [EFind now limit; EHandler (find_due now limit (docs s))]
                ++ match outcome with Some e => [ELog e] | None => [] end /\
  isRun (fst cycle) = false /\
  pending (fst cycle) = [] /\
  docs (fst cycle) = docs s.
Proof.
  intros Hc Hr Hp Hne. cbv zeta. simpl.
  unfold tick_start. rewrite Hr. simpl. rewrite Hc. simpl. rewrite Hp. simpl.
  unfold tick_found. simpl.
  destruct (find_due now limit (docs s)) as [|d rest]; [now elim Hne|].
  simpl. destruct outcome as [e|]; simpl; repeat split; reflexivity.
Qed.

Lemma full_cycle_returns_to_idle_witness :
  let s := set_collection true (new_GrattisEvent three_records 10%N) in
  isRun (fst (run [Tick 100 10; FindSettled 0 None;
                   HandlerSettled 0 (Some (HandlerError 3))] s)) = false.
Proof.
  cbv zeta.
  apply (full_cycle_returns_to_idle
           (set_collection true (new_GrattisEvent three_records 10%N))
           100 10 (Some (HandlerError 3)) eq_refl eq_refl eq_refl).
  vm_compute. discriminate.
Defined.

(** ** The guard once stuck, the connection once made *)

Lemma api_calls_do_not_poll (ev : Event) (s : State) :
  is_poll_event ev = false ->
  isRun (fst (step ev s)) = isRun s /\
  pending (fst (step ev s)) = pending s /\
  filter is_query (snd (step ev s)) = [] /\
  filter is_handler_call (snd (step ev s)) = [].
Proof.
  destruct ev as [now limit|i answer|i answer|env value dt now|ans id]; simpl;
    try discriminate; intros _.
  - send_cases env value s; repeat split; reflexivity.
  - unfold removeEvent.
    destruct (collection s); [destruct (new_ObjectId id); [destruct ans|]|];
      simpl; repeat split; reflexivity.
Qed.

Lemma stuck_step (ev : Event) (s : State) :
  isRun s = true -> pending s = [] ->
  isRun (fst (step ev s)) = true /\
  pending (fst (step ev s)) = [] /\
  filter is_query (snd (step ev s)) = [] /\
  filter is_handler_call (snd (step ev s)) = [].
Proof.
  intros Hr Hp. destruct (is_poll_event ev) eqn:E.
  - destruct ev as [now limit|i answer|i answer|env value dt now|ans id];
      try discriminate; simpl.
    + unfold tick_start. rewrite Hr. simpl. auto.
    + rewrite Hp. destruct i; simpl; auto.
    + rewrite Hp. destruct i; simpl; auto.
  - destruct (api_calls_do_not_poll ev s E) as [H1 [H2 [H3 H4]]].
    rewrite H1, H2. auto.
Qed.

(** X8: a state with the guard set and no callback suspended is final
    for the poller.  Whatever happens afterwards (ticks, stray settlements,
    calls of [send] and [removeEvent]), the guard stays set, nothing gets
    suspended, no query is issued and the handler is never called. *)
Theorem guard_set_while_idle_is_final (evs : list Event) (s : State) :
  isRun s = true ->
  pending s = [] ->
  isRun (fst (run evs s)) = true /\
  pending (fst (run evs s)) = [] /\
  filter is_query (snd (run evs s)) = [] /\
  filter is_handler_call (snd (run evs s)) = [].
Proof.
  revert s. induction evs as [|ev rest IH]; simpl; intros s Hr Hp.
  - auto.
  - destruct (stuck_step ev s Hr Hp) as [H1 [H2 [H3 H4]]].
    destruct (step ev s) as [s1 eff1]. simpl in *.
    destruct (IH s1 H1 H2) as [K1 [K2 [K3 K4]]].
    destruct (run rest s1) as [s2 eff2]. simpl in *.
    rewrite !filter_app, H3, H4, K3, K4. auto.
Qed.

Lemma guard_set_while_idle_is_final_witness :
  let s := set_isRun true (set_collection true (new_GrattisEvent three_records 10%N)) in
  filter is_query (snd (run [Tick 100 10; Tick 200 10; FindSettled 0 None] s)) = [].
Proof.
  cbv zeta.
  apply (guard_set_while_idle_is_final
           [Tick 100 10; Tick 200 10; FindSettled 0 None]
           (set_isRun true (set_collection true (new_GrattisEvent three_records 10%N)))
           eq_refl eq_refl).
Defined.

Lemma connected_step (ev : Event) (s : State) :
  collection s = true ->
  collection (fst (step ev s)) = true /\
  filter is_connect (snd (step ev s)) = [].
Proof.
  intros Hc. destruct (is_poll_event ev) eqn:E.
  - destruct (poll_events_keep_connection ev s E) as [H1 H2].
    rewrite H1. auto.
  - destruct ev as [now limit|i answer|i answer|env value dt now|ans id];
      try discriminate; simpl.
    + unfold send, ensure_connected, insert. rewrite Hc.
      destruct (normalize value); destruct (insert_error env); simpl; auto.
    + unfold removeEvent. rewrite Hc.
      destruct (new_ObjectId id); [destruct ans|]; simpl; auto.
Qed.

(** X9: the connection is made once.  From a state whose collection
    handle is set, no sequence of events clears the handle, and none asks
    the store for a connection again. *)
Theorem connection_is_kept (evs : list Event) (s : State) :
  collection s = true ->
  collection (fst (run evs s)) = true /\
  filter is_connect (snd (run evs s)) = [].
Proof.
  revert s. induction evs as [|ev rest IH]; simpl; intros s Hc.
  - auto.
  - destruct (connected_step ev s Hc) as [H1 H2].
    destruct (step ev s) as [s1 eff1]. simpl in *.
    destruct (IH s1 H1) as [K1 K2].
    destruct (run rest s1) as [s2 eff2]. simpl in *.
    rewrite filter_app, H2, K2. auto.
Qed.

Lemma connection_is_kept_witness :
  let s := snd (fst (send store_up [] None 0 (new_GrattisEvent [] 1%N))) in
  filter is_connect
    (snd (run [CallSend store_up [("a", VString "b")] None 5; Tick 10 10] s)) = [].
Proof.
  cbv zeta.
  apply (connection_is_kept
           [CallSend store_up [("a", VString "b")] None 5; Tick 10 10]
           (snd (fst (send store_up [] None 0 (new_GrattisEvent [] 1%N))))
           eq_refl).
Defined.

(** ** getItems *)

(** X10: [getItems] registers its interval only once the collection
    handle is set.  It succeeds exactly when the instance is connected or
    [connect] succeeds, and then one more interval is registered and the
    handle is set; when [connect] rejects, [getItems] ends in that error
    and leaves the instance as it was, with no interval.  A connected
    instance asks nothing of the store. *)
Theorem getItems_outcome (env : Env) (s : State) :
  let r := getItems env s in
  fst (fst r) =
    match (if collection s then None else connect_error env) with
    | Some e => Throw e
    | None => Ok tt
    end /\
  (fst (fst r) = Ok tt ->
   timers (snd (fst r)) = S (timers s) /\ collection (snd (fst r)) = true) /\
  (forall e, fst (fst r) = Throw e -> snd (fst r) = s /\ snd r = [EConnect]) /\
  (collection s = true -> snd r = []) /\
  docs (snd (fst r)) = docs s /\
  isRun (snd (fst r)) = isRun s.
Proof.
  cbv zeta. unfold getItems, ensure_connected, connect.
  destruct (collection s) eqn:Ec; [|destruct (connect_error env) as [ce|]];
    simpl; repeat split; try reflexivity; try discriminate; auto.
Qed.

Lemma getItems_outcome_witness :
  let s := new_GrattisEvent three_records 10%N in
  timers (snd (fst (getItems store_up s))) = 1%nat /\
  snd (fst (getItems (mkEnv (Some (ConnectionError 2)) None) s)) = s.
Proof.
  cbv zeta. split.
  - apply (getItems_outcome store_up (new_GrattisEvent three_records 10%N)).
    reflexivity.
  - apply (getItems_outcome (mkEnv (Some (ConnectionError 2)) None)
             (new_GrattisEvent three_records 10%N)) with (e := ConnectionError 2).
    reflexivity.
Defined.

(** ** removeEvent: what is deleted *)

Lemma deleteOne_length (o : ObjectId) (l : list Doc) :
  In o (map _id l) -> S (List.length (deleteOne o l)) = List.length l.
Proof.
  induction l as [|d rest IH]; simpl; intros Hin.
  - destruct Hin.
  - destruct (N.eqb (_id d) o) eqn:E; [reflexivity|].
    apply N.eqb_neq in E. simpl. f_equal. apply IH.
    destruct Hin as [H|H]; [contradiction | exact H].
Qed.

Lemma deleteOne_In (o : ObjectId) (l : list Doc) (d : Doc) :
  NoDup (map _id l) ->
  (In d (deleteOne o l) <-> In d l /\ _id d <> o).
Proof.
  induction l as [|x rest IH]; simpl; intros Hnd.
  - tauto.
  - inversion Hnd as [|? ? Hnotin Hnd']; subst.
    destruct (N.eqb (_id x) o) eqn:E.
    + apply N.eqb_eq in E. split.
      * intros Hin. split; [now right|].
        intros Heq. apply Hnotin. rewrite E, <- Heq. now apply in_map.
      * intros [[->|Hin] Hne]; [contradiction | exact Hin].
    + apply N.eqb_neq in E. simpl. rewrite (IH Hnd'). split.
      * intros [->|[Hin Hne]]; auto.
      * intros [[->|Hin] Hne]; auto.
Qed.

(** X11: on a connected instance whose records have distinct
    identifiers, when the store accepts the delete, [removeEvent] with the
    identifier of a stored record removes that record and no other: the
    collection is one record shorter, it holds exactly the other records,
    and no later query, whatever its time and limit, returns a record with
    that identifier.  When the store rejects the delete, every record
    stays. *)
Theorem removeEvent_deletes_one (id : EventId) (o : ObjectId) (s : State) :
  collection s = true ->
  new_ObjectId id = Ok o ->
  NoDup (map _id (docs s)) ->
  In o (map _id (docs s)) ->
  let after := snd (fst (removeEvent None id s)) in
  S (List.length (docs after)) = List.length (docs s) /\
  (forall d, In d (docs after) <-> In d (docs s) /\ _id d <> o) /\
  (forall now limit d, In d (find_due now limit (docs after)) -> _id d <> o) /\
  (forall e, docs (snd (fst (removeEvent (Some e) id s))) = docs s).
Proof.
  intros Hc Hid Hnd Hin. cbv zeta. unfold removeEvent.
  rewrite Hc, Hid. simpl. split; [|split; [|split]].
  - now apply deleteOne_length.
  - intros d. now apply deleteOne_In.
  - intros now limit d Hd. apply find_due_subset in Hd.
    destruct Hd as [Hd _]. now apply (deleteOne_In o (docs s) d Hnd) in Hd.
  - reflexivity.
Qed.

Lemma removeEvent_deletes_one_witness :
  let s := set_collection true (new_GrattisEvent three_records 10%N) in
  S (List.length (docs (snd (fst (removeEvent None (IdObject 2%N) s))))) = 3%nat.
Proof.
  cbv zeta.
  apply (removeEvent_deletes_one (IdObject 2%N) 2%N
           (set_collection true (new_GrattisEvent three_records 10%N))
           eq_refl eq_refl).
  - simpl. repeat constructor; simpl; intuition discriminate.
  - simpl. tauto.
Defined.

Lemma deleteOne_last (o : ObjectId) (l : list Doc) (d : Doc) :
  ~ In o (map _id l) -> _id d = o -> deleteOne o (l ++ [d]) = l.
Proof.
  intros Hn Hd. induction l as [|x rest IH]; simpl.
  - rewrite Hd, N.eqb_refl. reflexivity.
  - destruct (N.eqb (_id x) o) eqn:E.
    + apply N.eqb_eq in E. exfalso. apply Hn. now left.
    + rewrite IH; [reflexivity|]. intros H. apply Hn. now right.
Qed.

(** X12: enqueue, then delete.  After a [send] that succeeded,
    [removeEvent] with the identifier the new record was given, when the
    store accepts the delete, succeeds and leaves the collection as it was
    before the [send], provided no older record has that identifier. *)
Theorem send_then_removeEvent (env : Env) (value : Payload) (dt : option Z)
                              (now : Z) (s : State) :
  fst (fst (send env value dt now s)) = Ok tt ->
  ~ In (nextId s) (map _id (docs s)) ->
  let sent := snd (fst (send env value dt now s)) in
  fst (fst (removeEvent None (IdObject (nextId s)) sent)) = Ok tt /\
  docs (snd (fst (removeEvent None (IdObject (nextId s)) sent))) = docs s.
Proof.
  intros Hok Hfresh. cbv zeta. revert Hok.
  unfold send, ensure_connected, connect, insert, removeEvent.
  rewrite normalize_outcome.
  destruct (collection s) eqn:Ec; destruct (connect_error env);
    destruct (all_stringsb value); destruct (insert_error env); simpl;
    try discriminate; intros _; rewrite ?Ec; simpl;
    (split; [reflexivity|]); now apply deleteOne_last.
Qed.

Lemma send_then_removeEvent_witness :
  let s := new_GrattisEvent three_records 10%N in
  docs (snd (fst (removeEvent None (IdObject 10%N)
                    (snd (fst (send store_up [("type", VString "welcome")]
                                    None 100 s))))))
    = three_records.
Proof.
  cbv zeta.
  apply (send_then_removeEvent store_up [("type", VString "welcome")] None 100
           (new_GrattisEvent three_records 10%N)).
  - reflexivity.
  - simpl. intuition discriminate.
Defined.

Lemma deleteOne_NoDup (o : ObjectId) (l : list Doc) :
  NoDup (map _id l) -> NoDup (map _id (deleteOne o l)).
Proof.
  induction l as [|x rest IH]; simpl; intros Hnd.
  - constructor.
  - inversion Hnd as [|? ? Hnotin Hnd']; subst.
    destruct (N.eqb (_id x) o); [exact Hnd'|].
    simpl. constructor; [|now apply IH].
    intros Hin. apply Hnotin.
    apply in_map_iff in Hin. destruct Hin as [y [Hy Hin]].
    apply (deleteOne_In o rest y Hnd') in Hin.
    rewrite <- Hy. apply in_map. tauto.
Qed.

(** X13: a handler that deletes what it was given.  On a connected
    instance whose records have distinct identifiers, after [removeEvent]
    has been called with the [_id] of every record of a list and the store
    has accepted each delete, the collection holds exactly the records
    whose identifier is not in the list, and no later query returns a
    record of the list. *)
Theorem remove_all_deletes_exactly (records : list Doc) (s : State) :
  collection s = true ->
  NoDup (map _id (docs s)) ->
  let after := remove_all records s in
  collection after = true /\
  NoDup (map _id (docs after)) /\
  (forall d, In d (docs after) <->
             In d (docs s) /\ ~ In (_id d) (map _id records)) /\
  (forall now limit d, In d (find_due now limit (docs after)) ->
                       ~ In d records).
Proof.
  cbv zeta. revert s.
  assert (Hmain : forall s, collection s = true -> NoDup (map _id (docs s)) ->
            collection (remove_all records s) = true /\
            NoDup (map _id (docs (remove_all records s))) /\
            (forall d, In d (docs (remove_all records s)) <->
                       In d (docs s) /\ ~ In (_id d) (map _id records))).
  { induction records as [|r rest IH]; simpl; intros s Hc Hnd.
    - split; [exact Hc|]. split; [exact Hnd|]. intros d. tauto.
    - set (s1 := snd (fst (removeEvent None (IdObject (_id r)) s))).
      assert (H1 : collection s1 = true /\ docs s1 = deleteOne (_id r) (docs s)).
      { unfold s1, removeEvent. rewrite Hc. simpl. auto. }
      destruct H1 as [Hc1 Hd1].
      assert (Hnd1 : NoDup (map _id (docs s1))).
      { rewrite Hd1. now apply deleteOne_NoDup. }
      destruct (IH s1 Hc1 Hnd1) as [K1 [K2 K3]].
      split; [exact K1|]. split; [exact K2|].
      intros d. rewrite K3, Hd1, (deleteOne_In (_id r) (docs s) d Hnd).
      intuition congruence. }
  intros s Hc Hnd. destruct (Hmain s Hc Hnd) as [K1 [K2 K3]].
  split; [exact K1|]. split; [exact K2|]. split; [exact K3|].
  intros now limit d Hd Hin. apply find_due_subset in Hd.
  destruct Hd as [Hd _]. apply K3 in Hd. destruct Hd as [_ Hn].
  apply Hn. now apply in_map.
Qed.

Lemma remove_all_deletes_exactly_witness :
  let s := set_collection true (new_GrattisEvent three_records 10%N) in
  collection (remove_all (find_due 40 10 three_records) s) = true /\
  NoDup (map _id (docs (remove_all (find_due 40 10 three_records) s))).
Proof.
  cbv zeta.
  destruct (remove_all_deletes_exactly (find_due 40 10 three_records)
              (set_collection true (new_GrattisEvent three_records 10%N))
              eq_refl) as [H1 [H2 _]].
  - simpl. repeat constructor; simpl; intuition discriminate.
  - split; [exact H1 | exact H2].
Defined.
